(** * FlappySGD (src/Source.cpp): a shallow embedding of the game loop of [main]

    Numeric data as the C++ program holds it:
    - [double] (the components of [pos_t], [DeltaTime]) is Rocq's primitive
      binary64 [float], so [+], [-], [/] and [<] are the IEEE operations;
    - [float] ([GameTime], [Interval]) is a binary64 value that is always a
      binary32 value: every store into a [float] goes through [round32];
    - [int] and the fields of [SDL_Rect] are [Z];
    - an [SDL_Rect] that was never assigned (the [DestRect] of a fresh
      [GameObject]) is [None]; reading it yields the value the frame's input
      supplies for an indeterminate read. *)

From Stdlib Require Import ZArith Bool List Lia.
From Stdlib Require Import PrimFloat SpecFloat FloatOps.
From Stdlib Require Strings.String.
Import ListNotations.

Open Scope Z_scope.

(** ** Conversions between [double], [float] and [int] *)

(** [(double)z] for an [int] [z]: exact, since [|z| < 2^31 < 2^53]. *)
Definition double_of_int (z : Z) : float :=
  match z with
  | Z0 => zero
  | Zpos p => SF2Prim (S754_finite false p 0)
  | Zneg p => SF2Prim (S754_finite true p 0)
  end.

(** [(int)d]: C++ truncation toward zero (only defined in the C++ program
    when the result fits in an [int]; NaN and infinities give [0] here). *)
Definition int_of_double (d : float) : Z :=
  match Prim2SF d with
  | S754_finite s m e =>
      let mag := if Z.leb 0 e then Z.shiftl (Zpos m) e
                 else Z.shiftr (Zpos m) (- e) in
      if s then - mag else mag
  | _ => 0
  end.

(** Round half to even of [m / 2^sh] for [sh > 0]. *)
Definition round_shift (m sh : Z) : Z :=
  let q := Z.shiftr m sh in
  let r := m - Z.shiftl q sh in
  let half := Z.shiftl 1 (sh - 1) in
  if Z.ltb half r || (Z.eqb r half && Z.odd q) then q + 1 else q.

(** [(float)d]: rounding of a binary64 value to binary32 (24-bit significand,
    smallest exponent -149, overflow to infinity), round to nearest even. *)
Definition round32 (d : float) : float :=
  match Prim2SF d with
  | S754_finite s m e =>
      let digits := Z.log2 (Zpos m) + 1 in
      let sh := Z.max (digits - 24) (-149 - e) in
      if Z.leb sh 0 then d
      else
        let q := round_shift (Zpos m) sh in
        match q with
        | Z0 => SF2Prim (S754_zero s)
        | Zpos p =>
            if Z.leb 128 (Z.log2 q + 1 + e + sh)
            then SF2Prim (S754_infinity s)
            else SF2Prim (S754_finite s p (e + sh))
        | Zneg _ => d
        end
  | _ => d
  end.

Open Scope float_scope.

(** ** Data model *)

Definition SCREEN_WIDTH : Z := 800.
Definition SCREEN_HEIGHT : Z := 600.

(** [using pos_t = std::array<double, 2>] and its [operator +]. *)
Definition pos_t : Type := (float * float)%type.

Definition pos_add (a b : pos_t) : pos_t := (fst a + fst b, snd a + snd b).

Record SDL_Rect := mkRect { rect_x : Z; rect_y : Z; rect_w : Z; rect_h : Z }.

(** [class GameObject]; [DestRect] is [None] until it is first assigned. *)
Record GameObject := mkObj {
  Position : pos_t;
  Velocity : pos_t;
  Size : pos_t;
  DestRect : option SDL_Rect
}.

(** [bool CheckCollision(SDL_Rect a, SDL_Rect b)] *)
Definition CheckCollision (a b : SDL_Rect) : bool :=
  let leftA := rect_x a in
  let rightA := (rect_x a + rect_w a)%Z in
  let topA := rect_y a in
  let bottomA := (rect_y a + rect_h a)%Z in
  let leftB := rect_x b in
  let rightB := (rect_x b + rect_w b)%Z in
  let topB := rect_y b in
  let bottomB := (rect_y b + rect_h b)%Z in
  if (bottomA <=? topB)%Z then false
  else if (topA >=? bottomB)%Z then false
  else if (rightA <=? leftB)%Z then false
  else if (leftA >=? rightB)%Z then false
  else true.

(** [GameObject GetWall(pos_t Position, pos_t Velocity, pos_t Size)]:
    [DestRect] is left as the default-initialised, indeterminate value. *)
Definition GetWall (P V S : pos_t) : GameObject := mkObj P V S None.

(** The [DestRect] assigned in the render phase:
    [{ (int)(Position[0] - Size[0] / 2), (int)(Position[1] - Size[1] / 2),
       (int)Size[0], (int)Size[1] }]. *)
Definition rect_of (o : GameObject) : SDL_Rect :=
  mkRect (int_of_double (fst (Position o) - fst (Size o) / 2))
         (int_of_double (snd (Position o) - snd (Size o) / 2))
         (int_of_double (fst (Size o)))
         (int_of_double (snd (Size o))).

(** The local variables of [main] that the frame loop reads or writes.
    [TextureWidth] and [FrameWidth] are fixed before the loop, from
    [SDL_QueryTexture] on the player sprite sheet. *)
Record GameState := mkState {
  Player : GameObject;
  GameTime : float;
  Interval : float;
  Walls : list GameObject;
  GameLost : bool;
  FrameTime : Z;
  anim : SDL_Rect;
  TextureWidth : Z;
  FrameWidth : Z
}.

(** What a frame receives from outside the program: the keyboard snapshot,
    whether the event queue held [SDL_QUIT], the next values of the two
    random distributions ([RandomInterval] in [3,6], [RandomPos] in
    [-150,150]; consumed only when a pair of walls is spawned), and the value
    an indeterminate [SDL_Rect] read yields. *)
Record FrameInput := mkInput {
  up_held : bool;
  quit_requested : bool;
  draw_interval : Z;
  draw_pos : Z;
  indeterminate_rect : SDL_Rect
}.

Definition valid_input (i : FrameInput) : Prop :=
  (3 <= draw_interval i <= 6)%Z /\ (-150 <= draw_pos i <= 150)%Z.

Definition DeltaTime : float := 1 / 60.

(** The state before the loop, for the sprite sheet's queried size. *)
Definition init_state (TexW TexH : Z) : GameState :=
  {| Player := mkObj (double_of_int (SCREEN_WIDTH / 4), double_of_int (SCREEN_HEIGHT / 2))
                     (0, 0) (32, 32) None;
     GameTime := 0; Interval := 1; Walls := [];
     GameLost := false; FrameTime := 0;
     anim := mkRect 0 0 (TexW / 4) TexH;
     TextureWidth := TexW; FrameWidth := TexW / 4 |}.

(** ** The phases of one iteration of the [for] loop *)

Definition set_player (s : GameState) (p : GameObject) : GameState :=
  {| Player := p; GameTime := GameTime s; Interval := Interval s; Walls := Walls s;
     GameLost := GameLost s; FrameTime := FrameTime s; anim := anim s;
     TextureWidth := TextureWidth s; FrameWidth := FrameWidth s |}.

Definition set_lost (s : GameState) (b : bool) : GameState :=
  {| Player := Player s; GameTime := GameTime s; Interval := Interval s; Walls := Walls s;
     GameLost := b; FrameTime := FrameTime s; anim := anim s;
     TextureWidth := TextureWidth s; FrameWidth := FrameWidth s |}.

(** The two walls pushed by a spawn with offset [pos]. *)
Definition spawned_pair (pos : Z) : list GameObject :=
  [GetWall (832, 650 + double_of_int pos) (-1, 0) (64, 512);
   GetWall (832, -50 + double_of_int pos) (-1, 0) (64, 512)].

(** Lines 184-191: [GameTime += DeltaTime; if (GameTime > Interval) {...}]. *)
Definition spawn_phase (i : FrameInput) (s : GameState) : GameState :=
  let gt := round32 (GameTime s + DeltaTime) in
  if Interval s <? gt then
    {| Player := Player s; GameTime := gt;
       Interval := round32 (Interval s + double_of_int (draw_interval i));
       Walls := Walls s ++ spawned_pair (draw_pos i);
       GameLost := GameLost s; FrameTime := FrameTime s; anim := anim s;
       TextureWidth := TextureWidth s; FrameWidth := FrameWidth s |}
  else
    {| Player := Player s; GameTime := gt; Interval := Interval s;
       Walls := Walls s;
       GameLost := GameLost s; FrameTime := FrameTime s; anim := anim s;
       TextureWidth := TextureWidth s; FrameWidth := FrameWidth s |}.

(** Lines 200-205: [Player.Position[1]--; Player.Velocity[1] = -8;]. *)
Definition input_phase (i : FrameInput) (s : GameState) : GameState :=
  if negb (GameLost s) then
    if up_held i then
      let p := Player s in
      set_player s (mkObj (fst (Position p), snd (Position p) - 1)
                          (fst (Velocity p), -8) (Size p) (DestRect p))
    else s
  else s.

(** Lines 207-208. *)
Definition integrate_phase (s : GameState) : GameState :=
  let p := Player s in
  set_player s (mkObj (pos_add (Position p) (Velocity p))
                      (pos_add (Velocity p) (0, 0.5)) (Size p) (DestRect p)).

(** Lines 211-212; [-Player.Size[1] / 2] is [(-Size[1]) / 2]. *)
Definition bounds_phase (s : GameState) : GameState :=
  let p := Player s in
  if (snd (Position p) <? (- snd (Size p)) / 2)
     || (double_of_int SCREEN_HEIGHT + snd (Size p) / 2 <? snd (Position p))
  then set_lost s true
  else s.

(** Reading a [DestRect]: an indeterminate one yields the input's value
    (one arbitrary rectangle per frame, the same for every such read). *)
Definition read_rect (i : FrameInput) (r : option SDL_Rect) : SDL_Rect :=
  match r with
  | Some r => r
  | None => indeterminate_rect i
  end.

(** Lines 214-220: the range-for over [Walls], by reference. *)
Fixpoint collide_walls (i : FrameInput) (player_rect : SDL_Rect) (lost : bool)
    (ws : list GameObject) : list GameObject * bool :=
  match ws with
  | [] => ([], lost)
  | wall :: rest =>
      let wall' := mkObj (pos_add (Position wall) (Velocity wall)) (Velocity wall)
                         (Size wall) (DestRect wall) in
      let lost' := if CheckCollision (read_rect i (DestRect wall')) player_rect
                   then true else lost in
      let (rest', lost'') := collide_walls i player_rect lost' rest in
      (wall' :: rest', lost'')
  end.

Definition collide_phase (i : FrameInput) (s : GameState) : GameState :=
  let (ws, lost) := collide_walls i (read_rect i (DestRect (Player s))) (GameLost s) (Walls s) in
  {| Player := Player s; GameTime := GameTime s; Interval := Interval s; Walls := ws;
     GameLost := lost; FrameTime := FrameTime s; anim := anim s;
     TextureWidth := TextureWidth s; FrameWidth := FrameWidth s |}.

(** Lines 231-237: the sprite-sheet animation counter. *)
Definition anim_tick (TexW FrameW : Z) (ft ax : Z) : Z * Z :=
  let ft := (ft + 1)%Z in
  if (ft =? 5)%Z then
    let ax := (ax + FrameW)%Z in
    (0%Z, if (TexW <=? ax)%Z then 0%Z else ax)
  else (ft, ax).

(** Lines 222-250: the render phase; only its state updates are kept. *)
Definition render_phase (s : GameState) : GameState :=
  let ws := map (fun wall => mkObj (Position wall) (Velocity wall) (Size wall)
                                   (Some (rect_of wall))) (Walls s) in
  let (ft, ax) := anim_tick (TextureWidth s) (FrameWidth s) (FrameTime s) (rect_x (anim s)) in
  let p := Player s in
  {| Player := mkObj (Position p) (Velocity p) (Size p) (Some (rect_of p));
     GameTime := GameTime s; Interval := Interval s; Walls := ws;
     GameLost := GameLost s; FrameTime := ft;
     anim := mkRect ax (rect_y (anim s)) (rect_w (anim s)) (rect_h (anim s));
     TextureWidth := TextureWidth s; FrameWidth := FrameWidth s |}.

(** One iteration of the loop: the new state and the new [game_active]. *)
Definition frame (s : GameState) (i : FrameInput) : GameState * bool :=
  let s1 := spawn_phase i s in
  let s2 := input_phase i s1 in
  let s3 := integrate_phase s2 in
  let s4 := bounds_phase s3 in
  let s5 := collide_phase i s4 in
  let s6 := render_phase s5 in
  (s6, negb (quit_requested i)).

(** The loop: frames run until one of them sees a quit request. *)
Fixpoint run (s : GameState) (ins : list FrameInput) : GameState :=
  match ins with
  | [] => s
  | i :: rest =>
      let (s', active) := frame s i in
      if active then run s' rest else s'
  end.

(** States the loop passes through, from any sprite sheet and any inputs. *)
Inductive reachable : GameState -> Prop :=
  | reach_init : forall TexW TexH, reachable (init_state TexW TexH)
  | reach_frame : forall s i, reachable s -> reachable (fst (frame s i)).

(** ** Derived objects, invariants and concrete inputs *)

Definition move_wall (w : GameObject) : GameObject :=
  mkObj (pos_add (Position w) (Velocity w)) (Velocity w) (Size w) (DestRect w).

Definition render_obj (o : GameObject) : GameObject :=
  mkObj (Position o) (Velocity o) (Size o) (Some (rect_of o)).

Definition spawn_condition (s : GameState) : bool :=
  Interval s <? round32 (GameTime s + DeltaTime).

Definition wall_shape (w : GameObject) : Prop :=
  Velocity w = (-1, 0) /\ Size w = (64, 512).

Definition state_inv (s : GameState) : Prop :=
  Size (Player s) = (32, 32) /\
  fst (Position (Player s)) = 200 /\ fst (Velocity (Player s)) = 0 /\
  Forall wall_shape (Walls s) /\
  FrameWidth s = (TextureWidth s / 4)%Z.

Definition no_rect : SDL_Rect := mkRect 0 0 0 0.

(** A frame with no key held, no quit, and draws 3 and 0. *)
Definition idle_input : FrameInput := mkInput false false 3 0 no_rect.

Definition up_input : FrameInput := mkInput true false 3 0 no_rect.

Definition set_up (i : FrameInput) (b : bool) : FrameInput :=
  mkInput b (quit_requested i) (draw_interval i) (draw_pos i) (indeterminate_rect i).

(** The state at the start of frame 61 with a 128x32 sprite sheet and no
    input so far: the first spawn happens in this frame. *)
Definition state_at_first_spawn : GameState :=
  run (init_state 128 32) (repeat idle_input 60).

(** Frames the loop runs on a list of inputs, ignoring quit requests. *)
Definition frames (s : GameState) (ins : list FrameInput) : GameState :=
  fold_left (fun s i => fst (frame s i)) ins s.


(** [GameTime] after [n] frames: [n] times [GameTime += DeltaTime]. *)
Definition clock (n : nat) : float :=
  Nat.iter n (fun g => round32 (g + DeltaTime)) 0.

(** States reached when every random draw lies in its distribution's range. *)
Inductive reachable_valid : GameState -> Prop :=
  | rv_init : forall TexW TexH, reachable_valid (init_state TexW TexH)
  | rv_frame : forall s i, valid_input i -> reachable_valid s ->
      reachable_valid (fst (frame s i)).

(** The wall list as a sequence of spawned pairs: both walls of a pair share
    their x, keep velocity (-1,0) and size (64,512), and sit at heights
    650 + d and -50 + d for one offset d in [-150,150]. *)
Definition pair_ok (p : GameObject * GameObject) : Prop :=
  fst (Position (fst p)) = fst (Position (snd p)) /\
  wall_shape (fst p) /\ wall_shape (snd p) /\
  (exists d, (-150 <= d <= 150)%Z /\
     snd (Position (fst p)) = 650 + double_of_int d /\
     snd (Position (snd p)) = -50 + double_of_int d).

Definition flatten_pairs (ps : list (GameObject * GameObject)) : list GameObject :=
  concat (map (fun p => [fst p; snd p]) ps).

Definition paired (ws : list GameObject) : Prop :=
  exists ps, ws = flatten_pairs ps /\ Forall pair_ok ps.

(** ** The SDL calls of the render phase *)





(** ** Start-up: [ErrThrow], [InitWindows], [InitRenderer], [LoadTexture], [ShowText] *)

Module Startup.
Import Strings.String.
Local Open Scope Z_scope.
Local Open Scope string_scope.

(** The SDL, SDL_image and SDL_ttf calls the start-up code makes, with the
    arguments that identify them; a surface is named by the file or the
    text it was made from. *)
Inductive SDLCall :=
  | Call_SDL_Init
  | Call_SDL_CreateWindow (title : string) (width height : Z)
  | Call_SDL_CreateRenderer
  | Call_IMG_Load (fname : string)
  | Call_SDL_CreateTextureFromSurface (source : string)
  | Call_TTF_Init
  | Call_TTF_OpenFont (file : string) (size : Z)
  | Call_TTF_RenderText_Solid (text : string) (color : Z * Z * Z * Z)
  | Call_SDL_GetError
  | Call_SDL_Quit.

(** What the libraries answer: the return of [SDL_Init] and [TTF_Init],
    whether each creation returns a non-null pointer, and the text
    [SDL_GetError] returns when a check fails. *)
Record SDLEnv := mkEnv {
  init_result : Z;
  window_ok : bool;
  renderer_ok : bool;
  img_ok : string -> bool;
  texture_ok : string -> bool;
  ttf_init_result : Z;
  text_ok : bool;
  sdl_error : string }.

(** Start-up code: the calls made so far are the state, a thrown
    [std::runtime_error] is [inl] with its message. *)
Definition M (A : Type) : Type := list SDLCall -> list SDLCall * (string + A).


Definition bind {A B} (m : M A) (k : A -> M B) : M B :=
  fun tr => match m tr with
            | (tr', inl e) => (tr', inl e)
            | (tr', inr a) => k a tr'
            end.

Notation "x <- m ;; k" := (bind m (fun x => k))
  (at level 61, m at next level, right associativity).
Notation "m ;; k" := (bind m (fun _ => k))
  (at level 61, right associativity).


Section WithEnv.
Variable env : SDLEnv.









End WithEnv.



End Startup.

(** ** What each phase does to the player, the walls and the loss flag *)

Lemma spawn_phase_player : forall i s, Player (spawn_phase i s) = Player s.
Proof. intros i s; unfold spawn_phase; destruct (_ <? _); reflexivity. Qed.

Lemma spawn_phase_lost : forall i s, GameLost (spawn_phase i s) = GameLost s.
Proof. intros i s; unfold spawn_phase; destruct (_ <? _); reflexivity. Qed.

Lemma spawn_phase_walls : forall i s,
  Walls (spawn_phase i s) =
  Walls s ++ (if spawn_condition s then spawned_pair (draw_pos i) else []).
Proof.
  intros i s; unfold spawn_phase, spawn_condition; destruct (_ <? _); simpl;
    [reflexivity | now rewrite app_nil_r].
Qed.

Lemma input_phase_walls : forall i s, Walls (input_phase i s) = Walls s.
Proof.
  intros i s; unfold input_phase; destruct (negb (GameLost s)), (up_held i); reflexivity.
Qed.

Lemma input_phase_lost : forall i s, GameLost (input_phase i s) = GameLost s.
Proof.
  intros i s; unfold input_phase; destruct (negb (GameLost s)), (up_held i); reflexivity.
Qed.

Lemma input_phase_inert : forall i s,
  GameLost s = true \/ up_held i = false -> input_phase i s = s.
Proof.
  intros i s [H | H]; unfold input_phase; rewrite H; simpl;
    [reflexivity | destruct (negb _); reflexivity].
Qed.

Lemma bounds_phase_player : forall s, Player (bounds_phase s) = Player s.
Proof. intros s; unfold bounds_phase; destruct (_ || _); reflexivity. Qed.

Lemma bounds_phase_walls : forall s, Walls (bounds_phase s) = Walls s.
Proof. intros s; unfold bounds_phase; destruct (_ || _); reflexivity. Qed.

Lemma bounds_phase_lost : forall s,
  GameLost (bounds_phase s) =
  GameLost s || ((snd (Position (Player s)) <? (- snd (Size (Player s))) / 2)
                 || (double_of_int SCREEN_HEIGHT + snd (Size (Player s)) / 2
                     <? snd (Position (Player s)))).
Proof.
  intros s; unfold bounds_phase; destruct (_ || _); simpl;
    [now rewrite orb_true_r | now rewrite orb_false_r].
Qed.

Lemma collide_walls_spec : forall i pr lost ws,
  collide_walls i pr lost ws =
  (map move_wall ws,
   lost || existsb (fun w => CheckCollision (read_rect i (DestRect w)) pr) ws).
Proof.
  intros i pr lost ws; revert lost; induction ws as [| w ws IH]; intros lost; simpl.
  - now rewrite orb_false_r.
  - rewrite IH; f_equal.
    destruct (CheckCollision _ _), lost; reflexivity.
Qed.

Lemma collide_phase_player : forall i s, Player (collide_phase i s) = Player s.
Proof.
  intros i s; unfold collide_phase; rewrite collide_walls_spec; reflexivity.
Qed.

Lemma collide_phase_walls : forall i s,
  Walls (collide_phase i s) = map move_wall (Walls s).
Proof.
  intros i s; unfold collide_phase; rewrite collide_walls_spec; reflexivity.
Qed.

Lemma collide_phase_lost : forall i s,
  GameLost (collide_phase i s) =
  GameLost s || existsb (fun w => CheckCollision (read_rect i (DestRect w))
                                                 (read_rect i (DestRect (Player s))))
                        (Walls s).
Proof.
  intros i s; unfold collide_phase; rewrite collide_walls_spec; reflexivity.
Qed.

Lemma render_phase_player : forall s, Player (render_phase s) = render_obj (Player s).
Proof.
  intros s; unfold render_phase; destruct (anim_tick _ _ _ _); reflexivity.
Qed.

Lemma render_phase_walls : forall s, Walls (render_phase s) = map render_obj (Walls s).
Proof.
  intros s; unfold render_phase; destruct (anim_tick _ _ _ _); reflexivity.
Qed.

Lemma render_phase_lost : forall s, GameLost (render_phase s) = GameLost s.
Proof.
  intros s; unfold render_phase; destruct (anim_tick _ _ _ _); reflexivity.
Qed.

Lemma render_phase_anim : forall s,
  (FrameTime (render_phase s), rect_x (anim (render_phase s))) =
  anim_tick (TextureWidth s) (FrameWidth s) (FrameTime s) (rect_x (anim s)).
Proof.
  intros s; unfold render_phase; destruct (anim_tick _ _ _ _); reflexivity.
Qed.

Lemma render_phase_consts : forall s,
  TextureWidth (render_phase s) = TextureWidth s /\ FrameWidth (render_phase s) = FrameWidth s.
Proof.
  intros s; unfold render_phase; destruct (anim_tick _ _ _ _); split; reflexivity.
Qed.

Lemma frame_player : forall s i,
  Player (fst (frame s i)) =
  render_obj (Player (integrate_phase (input_phase i (spawn_phase i s)))).
Proof.
  intros s i; unfold frame; simpl.
  rewrite render_phase_player, collide_phase_player, bounds_phase_player; reflexivity.
Qed.

Lemma frame_walls : forall s i,
  Walls (fst (frame s i)) =
  map render_obj (map move_wall (Walls (spawn_phase i s))).
Proof.
  intros s i; unfold frame; simpl.
  rewrite render_phase_walls, collide_phase_walls, bounds_phase_walls.
  unfold integrate_phase; simpl; rewrite input_phase_walls; reflexivity.
Qed.

Lemma input_phase_player : forall i s,
  let p := Player s in
  let p' := Player (input_phase i s) in
  fst (Position p') = fst (Position p) /\ fst (Velocity p') = fst (Velocity p) /\
  Size p' = Size p /\ DestRect p' = DestRect p.
Proof.
  intros i s; unfold input_phase; destruct (negb (GameLost s)), (up_held i);
    repeat split.
Qed.

Lemma frame_consts : forall s i,
  TextureWidth (fst (frame s i)) = TextureWidth s /\ FrameWidth (fst (frame s i)) = FrameWidth s.
Proof.
  intros s i; unfold frame; simpl.
  destruct (render_phase_consts
              (collide_phase i (bounds_phase (integrate_phase (input_phase i (spawn_phase i s))))))
    as [-> ->].
  unfold collide_phase; rewrite collide_walls_spec; simpl.
  unfold bounds_phase; destruct (_ || _); simpl;
  unfold input_phase; destruct (negb _), (up_held i); simpl;
  unfold spawn_phase; destruct (_ <? _); simpl; split; reflexivity.
Qed.

(** ** Invariants of the reachable states *)

Lemma reachable_inv : forall s, reachable s -> state_inv s.
Proof.
  induction 1 as [TexW TexH | s i _ IH].
  - repeat split; simpl; try reflexivity. constructor.
  - destruct IH as (Hsz & Hx & Hvx & Hws & Hfw).
    destruct (input_phase_player i (spawn_phase i s)) as (Hx2 & Hvx2 & Hsz2 & _).
    rewrite spawn_phase_player in Hx2, Hvx2, Hsz2.
    destruct (frame_consts s i) as [Htw Hfw'].
    repeat split.
    + rewrite frame_player; simpl; rewrite Hsz2; exact Hsz.
    + rewrite frame_player; simpl; rewrite Hx2, Hvx2, Hx, Hvx; reflexivity.
    + rewrite frame_player; simpl; rewrite Hvx2, Hvx; reflexivity.
    + rewrite frame_walls, spawn_phase_walls, !Forall_map.
      apply Forall_app; split.
      * eapply Forall_impl; [| exact Hws]; intros w [Hv Hs]; split; simpl;
          [exact Hv | exact Hs].
      * destruct (spawn_condition s); repeat constructor.
    + rewrite Htw, Hfw'; exact Hfw.
Qed.

Lemma frame_lost : forall s i,
  GameLost (fst (frame s i)) =
  GameLost (bounds_phase (integrate_phase (input_phase i (spawn_phase i s))))
  || existsb (fun w => CheckCollision (read_rect i (DestRect w))
                                      (read_rect i (DestRect (Player s))))
             (Walls (spawn_phase i s)).
Proof.
  intros s i; unfold frame; simpl.
  rewrite render_phase_lost, collide_phase_lost, bounds_phase_player, bounds_phase_walls.
  unfold integrate_phase at 2 3; simpl.
  rewrite input_phase_walls.
  destruct (input_phase_player i (spawn_phase i s)) as (_ & _ & _ & Hd).
  rewrite Hd, spawn_phase_player; reflexivity.
Qed.

Lemma frame_keeps_lost : forall s i, GameLost s = true -> GameLost (fst (frame s i)) = true.
Proof.
  intros s i H; rewrite frame_lost, bounds_phase_lost.
  unfold integrate_phase; simpl; rewrite input_phase_lost, spawn_phase_lost, H; reflexivity.
Qed.

Lemma run_lost : forall ins s, GameLost s = true -> GameLost (run s ins) = true.
Proof.
  induction ins as [| i ins IH]; intros s H; cbn [run]; [exact H |].
  pose proof (frame_keeps_lost s i H) as Hf.
  destruct (frame s i) as [s' active] eqn:E; simpl in Hf.
  destruct active; [apply IH |]; exact Hf.
Qed.

Lemma double_gap_700 : forall off, (-150 <= off <= 150)%Z ->
  (650 + double_of_int off) - (-50 + double_of_int off) = 700.
Proof.
  intros off H.
  assert (Hin : In off (map (fun n => Z.of_nat n - 150)%Z (seq 0 301))).
  { apply in_map_iff; exists (Z.to_nat (off + 150)); split; [lia | apply in_seq; lia]. }
  simpl in Hin.
  repeat (destruct Hin as [<- | Hin]; [reflexivity |]).
  destruct Hin.
Qed.

Lemma reachable_run : forall ins s, reachable s -> reachable (run s ins).
Proof.
  induction ins as [| i ins IH]; intros s H; cbn [run]; [exact H |].
  destruct (frame s i) as [s' active] eqn:E.
  assert (Hr : reachable s') by (change s' with (fst (s', active)); rewrite <- E; constructor; exact H).
  destruct active; [apply IH |]; exact Hr.
Qed.

Lemma state_at_first_spawn_reachable : reachable state_at_first_spawn.
Proof. apply reachable_run; constructor. Qed.

Lemma spawn_phase_set_up : forall i b s, spawn_phase (set_up i b) s = spawn_phase i s.
Proof. reflexivity. Qed.

Lemma collide_phase_set_up : forall i b s, collide_phase (set_up i b) s = collide_phase i s.
Proof.
  intros i b s; unfold collide_phase; rewrite !collide_walls_spec; reflexivity.
Qed.

(** ** The claims *)

(** C1 (counterexample): in the first spawn event of a run, the second
    wall pushed is at y = -50 and the first at y = 650, so
    [wall2.y - wall1.y] is -700, not 700. *)
Lemma spawn_pair_gap_not_700 :
  spawn_condition state_at_first_spawn = true /\
  Walls (spawn_phase idle_input state_at_first_spawn) =
    Walls state_at_first_spawn ++
    [GetWall (832, 650) (-1, 0) (64, 512); GetWall (832, -50) (-1, 0) (64, 512)] /\
  (-50) - 650 = -700 /\ PrimFloat.eqb ((-50) - 650) 700 = false.
Proof. vm_compute; repeat split; reflexivity. Qed.

(** C1 (amended): a spawn event (a frame whose updated [GameTime] exceeds
    [Interval]) pushes exactly two walls, both at x = 832 with velocity
    (-1,0), size (64,512) and no [DestRect] yet, at y = 650 + offset and
    y = -50 + offset for one offset in [-150,150]; the first one's y minus
    the second one's y is 700. A frame without a spawn event pushes none. *)
Theorem spawn_pushes_wall_pair : forall s i,
  valid_input i ->
  (spawn_condition s = true ->
   exists off, (-150 <= off <= 150)%Z /\
     Walls (spawn_phase i s) =
       Walls s ++ [GetWall (832, 650 + double_of_int off) (-1, 0) (64, 512);
                   GetWall (832, -50 + double_of_int off) (-1, 0) (64, 512)] /\
     (650 + double_of_int off) - (-50 + double_of_int off) = 700) /\
  (spawn_condition s = false -> Walls (spawn_phase i s) = Walls s).
Proof.
  intros s i [_ Hpos]; split; intros H; rewrite spawn_phase_walls, H.
  - exists (draw_pos i); split; [exact Hpos | split; [reflexivity |]].
    apply double_gap_700; exact Hpos.
  - apply app_nil_r.
Qed.

Lemma spawn_pushes_wall_pair_witness :
  valid_input idle_input /\ spawn_condition state_at_first_spawn = true /\
  Walls (spawn_phase idle_input state_at_first_spawn) <> Walls state_at_first_spawn /\
  ((spawn_condition state_at_first_spawn = true ->
    exists off, (-150 <= off <= 150)%Z /\
      Walls (spawn_phase idle_input state_at_first_spawn) =
        Walls state_at_first_spawn ++
          [GetWall (832, 650 + double_of_int off) (-1, 0) (64, 512);
           GetWall (832, -50 + double_of_int off) (-1, 0) (64, 512)] /\
      (650 + double_of_int off) - (-50 + double_of_int off) = 700) /\
   (spawn_condition state_at_first_spawn = false ->
    Walls (spawn_phase idle_input state_at_first_spawn) = Walls state_at_first_spawn)).
Proof.
  split; [unfold valid_input; simpl; lia |].
  split; [vm_compute; reflexivity |].
  split; [vm_compute; discriminate |].
  apply spawn_pushes_wall_pair; unfold valid_input; simpl; lia.
Defined.

(** C2: in every frame, whatever the loss flag, integration runs: the
    player's new position is its position plus its velocity and its new
    velocity is its velocity plus (0, 0.5), both taken as they stand after
    the input step; each wall's new position is its position plus (-1, 0).
    When the game is lost (or the up key is not held) the input step leaves
    the player unchanged, so the law holds from frame start to frame end. *)
Theorem integration_every_frame : forall s i,
  reachable s ->
  let s2 := input_phase i (spawn_phase i s) in
  let s' := fst (frame s i) in
  Position (Player s') = pos_add (Position (Player s2)) (Velocity (Player s2)) /\
  Velocity (Player s') = pos_add (Velocity (Player s2)) (0, 0.5) /\
  map Position (Walls s') = map (fun w => pos_add (Position w) (-1, 0)) (Walls s2) /\
  (GameLost s = true \/ up_held i = false -> Player s2 = Player s).
Proof.
  intros s i Hr s2 s'.
  destruct (reachable_inv s Hr) as (_ & _ & _ & Hws & _).
  subst s2 s'; repeat split.
  - rewrite frame_player; reflexivity.
  - rewrite frame_player; reflexivity.
  - rewrite frame_walls, input_phase_walls, !map_map, spawn_phase_walls.
    apply map_ext_in; intros w Hin; simpl.
    apply in_app_or in Hin as [Hin | Hin].
    + rewrite Forall_forall in Hws; destruct (Hws w Hin) as [-> _]; reflexivity.
    + destruct (spawn_condition s); simpl in Hin;
        [destruct Hin as [<- | [<- | []]]; reflexivity | destruct Hin].
  - intros H; rewrite input_phase_inert; [apply spawn_phase_player |].
    rewrite spawn_phase_lost; exact H.
Qed.

Lemma integration_every_frame_witness :
  reachable state_at_first_spawn /\
  (let s2 := input_phase up_input (spawn_phase up_input state_at_first_spawn) in
   let s' := fst (frame state_at_first_spawn up_input) in
   Position (Player s') = pos_add (Position (Player s2)) (Velocity (Player s2)) /\
   Velocity (Player s') = pos_add (Velocity (Player s2)) (0, 0.5) /\
   map Position (Walls s') = map (fun w => pos_add (Position w) (-1, 0)) (Walls s2) /\
   (GameLost state_at_first_spawn = true \/ up_held up_input = false ->
    Player s2 = Player state_at_first_spawn)).
Proof.
  split; [exact state_at_first_spawn_reachable |].
  apply integration_every_frame; exact state_at_first_spawn_reachable.
Defined.

(** C4: once [GameLost] is true, every phase of the loop keeps it true, so
    does every later frame of the run, the input step leaves the state
    unchanged, and a frame is the same whether the up key is held or not. *)
Theorem lost_is_permanent : forall s i,
  GameLost s = true ->
  GameLost (spawn_phase i s) = true /\ GameLost (input_phase i s) = true /\
  GameLost (integrate_phase s) = true /\ GameLost (bounds_phase s) = true /\
  GameLost (collide_phase i s) = true /\ GameLost (render_phase s) = true /\
  GameLost (fst (frame s i)) = true /\
  (forall ins, GameLost (run s ins) = true) /\
  input_phase i s = s /\
  frame s (set_up i true) = frame s (set_up i false).
Proof.
  intros s i H.
  split; [rewrite spawn_phase_lost; exact H |].
  split; [rewrite input_phase_lost; exact H |].
  split; [exact H |].
  split; [rewrite bounds_phase_lost, H; reflexivity |].
  split; [rewrite collide_phase_lost, H; reflexivity |].
  split; [rewrite render_phase_lost; exact H |].
  split; [apply frame_keeps_lost; exact H |].
  split; [intros ins; apply run_lost; exact H |].
  split; [apply input_phase_inert; left; exact H |].
  unfold frame.
  rewrite (input_phase_inert (set_up i true)), (input_phase_inert (set_up i false));
    try (left; rewrite spawn_phase_lost; exact H).
  rewrite !spawn_phase_set_up, !collide_phase_set_up; reflexivity.
Qed.

Lemma lost_is_permanent_witness :
  GameLost (set_lost (init_state 128 32) true) = true /\
  GameLost (fst (frame (set_lost (init_state 128 32) true) up_input)) = true /\
  frame (set_lost (init_state 128 32) true) (set_up up_input true) =
  frame (set_lost (init_state 128 32) true) (set_up up_input false).
Proof.
  split; [reflexivity |].
  destruct (lost_is_permanent (set_lost (init_state 128 32) true) up_input)
    as (_ & _ & _ & _ & _ & _ & H1 & _ & _ & H2); [reflexivity |].
  split; [exact H1 | exact H2].
Defined.

(** C5: [CheckCollision a b] holds exactly when the four strict
    comparisons hold; rectangles that only share an edge or a corner do not
    collide; the test is symmetric. *)
Theorem CheckCollision_iff_strict : forall a b,
  let leftA := rect_x a in let rightA := (rect_x a + rect_w a)%Z in
  let topA := rect_y a in let bottomA := (rect_y a + rect_h a)%Z in
  let leftB := rect_x b in let rightB := (rect_x b + rect_w b)%Z in
  let topB := rect_y b in let bottomB := (rect_y b + rect_h b)%Z in
  (CheckCollision a b = true <->
   (bottomA > topB /\ topA < bottomB /\ rightA > leftB /\ leftA < rightB)%Z) /\
  ((rightA = leftB \/ leftA = rightB \/ bottomA = topB \/ topA = bottomB)%Z ->
   CheckCollision a b = false) /\
  CheckCollision a b = CheckCollision b a.
Proof.
  intros a b; simpl; unfold CheckCollision; rewrite !Z.geb_leb.
  destruct (Z.leb_spec (rect_y a + rect_h a) (rect_y b));
  destruct (Z.leb_spec (rect_y b + rect_h b) (rect_y a));
  destruct (Z.leb_spec (rect_x a + rect_w a) (rect_x b));
  destruct (Z.leb_spec (rect_x b + rect_w b) (rect_x a));
  repeat split; intros; try reflexivity; try discriminate; try lia.
Qed.

(** C7: in a frame where [GameLost] is false and the up key is held, the
    input step lowers the player's y by exactly 1 and sets its vertical
    velocity to exactly -8 before integration (x, horizontal velocity and
    size untouched); in a frame where [GameLost] is true it changes nothing. *)
Theorem up_key_impulse : forall s i,
  up_held i = true ->
  let p := Player s in
  let p2 := Player (input_phase i (spawn_phase i s)) in
  (GameLost s = false ->
   Position p2 = (fst (Position p), snd (Position p) - 1) /\
   Velocity p2 = (fst (Velocity p), -8) /\ Size p2 = Size p) /\
  (GameLost s = true -> p2 = p).
Proof.
  intros s i Hup p p2; subst p p2; split; intros H.
  - unfold input_phase; rewrite spawn_phase_lost, H, Hup; simpl.
    rewrite spawn_phase_player; repeat split.
  - rewrite input_phase_inert; [apply spawn_phase_player |].
    left; rewrite spawn_phase_lost; exact H.
Qed.

Lemma up_key_impulse_witness :
  up_held up_input = true /\
  Position (Player (input_phase up_input (spawn_phase up_input (init_state 128 32)))) =
    (200, 299) /\
  Velocity (Player (input_phase up_input (spawn_phase up_input (init_state 128 32)))) =
    (0, -8).
Proof.
  split; [reflexivity |].
  destruct (up_key_impulse (init_state 128 32) up_input) as [H _]; [reflexivity |].
  destruct (H eq_refl) as (Hp & Hv & _).
  rewrite Hp, Hv; split; reflexivity.
Defined.

(** C10: in every reachable state the player's x is 200 (SCREEN_WIDTH / 4)
    and its horizontal velocity is 0. *)
Theorem player_x_constant : forall s,
  reachable s ->
  fst (Position (Player s)) = 200 /\ fst (Velocity (Player s)) = 0.
Proof.
  intros s Hr; destruct (reachable_inv s Hr) as (_ & Hx & Hv & _); split; assumption.
Qed.

Lemma player_x_constant_witness :
  reachable state_at_first_spawn /\
  fst (Position (Player state_at_first_spawn)) = 200 /\
  fst (Velocity (Player state_at_first_spawn)) = 0.
Proof.
  split; [exact state_at_first_spawn_reachable |].
  apply player_x_constant; exact state_at_first_spawn_reachable.
Defined.

Lemma frame_rendered : forall s i,
  let s1 := fst (frame s i) in
  (forall w, In w (Walls s1) -> DestRect w = Some (rect_of w)) /\
  DestRect (Player s1) = Some (rect_of (Player s1)).
Proof.
  intros s i s1; subst s1; split.
  - rewrite frame_walls; intros w Hin.
    apply in_map_iff in Hin as (w0 & <- & _); reflexivity.
  - rewrite frame_player; reflexivity.
Qed.

Lemma collision_of_rendered_state : forall s1 i2,
  (forall w, In w (Walls s1) -> DestRect w = Some (rect_of w)) ->
  DestRect (Player s1) = Some (rect_of (Player s1)) ->
  GameLost (fst (frame s1 i2)) =
    GameLost (bounds_phase (integrate_phase (input_phase i2 (spawn_phase i2 s1))))
    || existsb (fun w => CheckCollision (rect_of w) (rect_of (Player s1))) (Walls s1)
    || existsb (fun w => CheckCollision (read_rect i2 (DestRect w)) (rect_of (Player s1)))
               (if spawn_condition s1 then spawned_pair (draw_pos i2) else []).
Proof.
  intros s1 i2 Hws Hp.
  rewrite frame_lost, Hp, spawn_phase_walls, existsb_app, orb_assoc; simpl.
  f_equal; f_equal.
  induction (Walls s1) as [| w ws IH]; [reflexivity |]; simpl.
  rewrite (Hws w (or_introl eq_refl)), IH; [reflexivity |].
  intros w' Hin; apply Hws; right; exact Hin.
Qed.

(** C3: in the frame after any frame, the collision check tests each wall
    that existed before the frame against the player with the rectangles
    the previous render phase derived from the previous frame's
    post-integration positions ([rect_of] of the state the previous frame
    left, whose positions are the ones its integration and wall loop
    produced); the walls spawned in the frame are tested with their
    never-assigned rectangle. The current frame's positions enter no test. *)
Theorem collision_uses_previous_boxes : forall s i1 i2,
  let s1 := fst (frame s i1) in
  Position (Player s1) =
    Position (Player (integrate_phase (input_phase i1 (spawn_phase i1 s)))) /\
  map Position (Walls s1) = map Position (map move_wall (Walls (spawn_phase i1 s))) /\
  GameLost (fst (frame s1 i2)) =
    GameLost (bounds_phase (integrate_phase (input_phase i2 (spawn_phase i2 s1))))
    || existsb (fun w => CheckCollision (rect_of w) (rect_of (Player s1))) (Walls s1)
    || existsb (fun w => CheckCollision (read_rect i2 (DestRect w)) (rect_of (Player s1)))
               (if spawn_condition s1 then spawned_pair (draw_pos i2) else []).
Proof.
  intros s i1 i2 s1.
  destruct (frame_rendered s i1) as [Hws Hp].
  split; [subst s1; rewrite frame_player; reflexivity |].
  split; [subst s1; rewrite frame_walls, !map_map; reflexivity |].
  apply collision_of_rendered_state; assumption.
Qed.

(** C6: right after integration the loss flag becomes
    [GameLost || y < -16 || y > 616] (-Size[1]/2 and SCREEN_HEIGHT +
    Size[1]/2 for the 32x32 player), so from [false] it becomes true exactly
    when y is strictly outside [-16, 616]; y = -16 or y = 616 leaves it as it
    was; once set it stays set in every later frame, wherever y goes. *)
Theorem bounds_loss_exact : forall s i,
  reachable s ->
  let s3 := integrate_phase (input_phase i (spawn_phase i s)) in
  let y := snd (Position (Player s3)) in
  GameLost (bounds_phase s3) = GameLost s || ((y <? -16) || (616 <? y)) /\
  (GameLost s = false ->
   (GameLost (bounds_phase s3) = true <-> (y <? -16) = true \/ (616 <? y) = true)) /\
  (y = -16 \/ y = 616 -> GameLost (bounds_phase s3) = GameLost s) /\
  (GameLost (bounds_phase s3) = true ->
   forall ins, GameLost (run (fst (frame s i)) ins) = true).
Proof.
  intros s i Hr s3 y.
  destruct (reachable_inv s Hr) as (Hsz & _).
  destruct (input_phase_player i (spawn_phase i s)) as (_ & _ & Hsz2 & _).
  rewrite spawn_phase_player in Hsz2.
  assert (Hlost : GameLost (bounds_phase s3) = GameLost s || ((y <? -16) || (616 <? y))).
  { rewrite bounds_phase_lost; subst s3 y; unfold integrate_phase; simpl.
    rewrite Hsz2, Hsz, input_phase_lost, spawn_phase_lost; reflexivity. }
  split; [exact Hlost |].
  split; [intros H; rewrite Hlost, H; simpl; apply orb_true_iff |].
  split; [intros [Hy | Hy]; rewrite Hlost, Hy; simpl; apply orb_false_r |].
  intros H ins; apply run_lost.
  rewrite frame_lost; subst y s3; rewrite H; reflexivity.
Qed.

Lemma bounds_loss_exact_witness :
  reachable state_at_first_spawn /\
  GameLost (bounds_phase (integrate_phase (input_phase idle_input
              (spawn_phase idle_input state_at_first_spawn)))) =
  GameLost state_at_first_spawn ||
  ((snd (Position (Player (integrate_phase (input_phase idle_input
              (spawn_phase idle_input state_at_first_spawn))))) <? -16)
   || (616 <? snd (Position (Player (integrate_phase (input_phase idle_input
              (spawn_phase idle_input state_at_first_spawn))))))).
Proof.
  split; [exact state_at_first_spawn_reachable |].
  destruct (bounds_loss_exact state_at_first_spawn idle_input state_at_first_spawn_reachable)
    as [H _].
  exact H.
Defined.

(** C9: in a frame with a spawn event the two new walls reach the
    collision check with their [DestRect] never assigned ([GetWall] leaves
    it indeterminate and the render phase that assigns it runs after the
    check), so their test reads the indeterminate rectangle, not one derived
    from their spawn position; they get a rectangle only in that frame's
    render phase. *)
Theorem spawned_walls_checked_unrendered : forall s i,
  spawn_condition s = true ->
  let s4 := bounds_phase (integrate_phase (input_phase i (spawn_phase i s))) in
  let pr := read_rect i (DestRect (Player s)) in
  Walls s4 = Walls s ++ spawned_pair (draw_pos i) /\
  Forall (fun w => DestRect w = None) (spawned_pair (draw_pos i)) /\
  GameLost (collide_phase i s4) =
    GameLost s4
    || existsb (fun w => CheckCollision (read_rect i (DestRect w)) pr) (Walls s)
    || CheckCollision (indeterminate_rect i) pr
    || CheckCollision (indeterminate_rect i) pr.
Proof.
  intros s i Hsp s4 pr.
  assert (Hw : Walls s4 = Walls s ++ spawned_pair (draw_pos i)).
  { subst s4; rewrite bounds_phase_walls; unfold integrate_phase; simpl.
    rewrite input_phase_walls, spawn_phase_walls, Hsp; reflexivity. }
  split; [exact Hw |].
  split; [repeat constructor |].
  rewrite collide_phase_lost, Hw, existsb_app.
  assert (Hd : DestRect (Player s4) = DestRect (Player s)).
  { subst s4; rewrite bounds_phase_player; unfold integrate_phase; simpl.
    destruct (input_phase_player i (spawn_phase i s)) as (_ & _ & _ & ->).
    rewrite spawn_phase_player; reflexivity. }
  rewrite Hd; fold pr; simpl.
  rewrite orb_false_r, !orb_assoc; reflexivity.
Qed.

Lemma spawned_walls_checked_unrendered_witness :
  spawn_condition state_at_first_spawn = true /\
  Walls (bounds_phase (integrate_phase (input_phase idle_input
           (spawn_phase idle_input state_at_first_spawn)))) =
  Walls state_at_first_spawn ++ spawned_pair 0.
Proof.
  split; [vm_compute; reflexivity |].
  apply (spawned_walls_checked_unrendered state_at_first_spawn idle_input).
  vm_compute; reflexivity.
Defined.

Lemma frame_anim : forall s i,
  (FrameTime (fst (frame s i)), rect_x (anim (fst (frame s i)))) =
  anim_tick (TextureWidth s) (FrameWidth s) (FrameTime s) (rect_x (anim s)).
Proof.
  intros s i; unfold frame; simpl; rewrite render_phase_anim.
  unfold collide_phase; rewrite collide_walls_spec; simpl.
  unfold bounds_phase; destruct (_ || _); simpl;
  unfold input_phase; destruct (negb _), (up_held i); simpl;
  unfold spawn_phase; destruct (_ <? _); reflexivity.
Qed.

Lemma anim_tick_index : forall k n, (0 < k)%Z -> (0 <= n)%Z ->
  anim_tick (4 * k) k (n mod 5) (k * ((n / 5) mod 4)) =
  ((n + 1) mod 5, k * (((n + 1) / 5) mod 4))%Z.
Proof.
  intros k n Hk Hn; unfold anim_tick.
  pose proof (Z.div_mod n 5 ltac:(lia)) as Hn5.
  pose proof (Z.mod_pos_bound n 5 ltac:(lia)) as Hr.
  set (q := (n / 5)%Z) in *; set (r := (n mod 5)%Z) in *.
  pose proof (Z.div_mod q 4 ltac:(lia)) as Hq4.
  pose proof (Z.mod_pos_bound q 4 ltac:(lia)) as Hm.
  set (m := (q mod 4)%Z) in *.
  destruct (Z.eqb_spec (r + 1) 5) as [Hr4 | Hr4].
  - assert (E1 : ((n + 1) mod 5 = 0)%Z)
      by (symmetry; apply Z.mod_unique with (q + 1)%Z; lia).
    assert (E2 : ((n + 1) / 5 = q + 1)%Z)
      by (symmetry; apply Z.div_unique with 0%Z; lia).
    rewrite E1, E2.
    destruct (Z.leb_spec (4 * k) (k * m + k)) as [Hw | Hw].
    + assert (m = 3)%Z by nia.
      assert (E3 : ((q + 1) mod 4 = 0)%Z)
        by (symmetry; apply Z.mod_unique with (q / 4 + 1)%Z; lia).
      rewrite E3; f_equal; lia.
    + assert (m < 3)%Z by nia.
      assert (E3 : ((q + 1) mod 4 = m + 1)%Z)
        by (symmetry; apply Z.mod_unique with (q / 4)%Z; lia).
      rewrite E3; f_equal; lia.
  - assert (E1 : ((n + 1) mod 5 = r + 1)%Z)
      by (symmetry; apply Z.mod_unique with q; lia).
    assert (E2 : ((n + 1) / 5 = q)%Z)
      by (symmetry; apply Z.div_unique with (r + 1)%Z; lia).
    rewrite E1, E2; reflexivity.
Qed.

Lemma frames_anim : forall k ins s n,
  (0 < k)%Z -> (0 <= n)%Z ->
  TextureWidth s = (4 * k)%Z -> FrameWidth s = k ->
  FrameTime s = (n mod 5)%Z -> rect_x (anim s) = (k * ((n / 5) mod 4))%Z ->
  let s' := frames s ins in
  TextureWidth s' = (4 * k)%Z /\ FrameWidth s' = k /\
  FrameTime s' = ((n + Z.of_nat (length ins)) mod 5)%Z /\
  rect_x (anim s') = (k * (((n + Z.of_nat (length ins)) / 5) mod 4))%Z.
Proof.
  intros k ins; induction ins as [| i ins IH]; intros s n Hk Hn Htw Hfw Hft Hax s'.
  - subst s'; simpl; rewrite Z.add_0_r; repeat split; assumption.
  - subst s'; change (frames s (i :: ins)) with (frames (fst (frame s i)) ins).
    replace (n + Z.of_nat (length (i :: ins)))%Z with (n + 1 + Z.of_nat (length ins))%Z
      by (cbn [length]; lia).
    pose proof (frame_anim s i) as Ha.
    rewrite Htw, Hfw, Hft, Hax, anim_tick_index in Ha by assumption.
    apply pair_equal_spec in Ha as [Hft' Hax'].
    destruct (frame_consts s i) as [Htw' Hfw'].
    destruct (IH (fst (frame s i)) (n + 1)%Z) as (H1 & H2 & H3 & H4);
      try assumption; try lia; try congruence.
Qed.

Lemma in_four_offsets : forall k j, (0 <= j < 4)%Z -> In (k * j)%Z [0; k; 2 * k; 3 * k]%Z.
Proof.
  intros k j Hj.
  assert (Hc : (j = 0 \/ j = 1 \/ j = 2 \/ j = 3)%Z) by lia.
  destruct Hc as [-> | [-> | [-> | ->]]]; cbn [In]; lia.
Qed.

(** C8 (counterexample): with a 5-pixel-wide sprite sheet, [FrameWidth] is
    [5 / 4 = 1] and after 20 frames the offset is 4 = 4 * FrameWidth, a fifth
    position (it wraps only when it reaches [TextureWidth] = 5). *)
Lemma anim_fifth_position_width_5 :
  let s := frames (init_state 5 1) (repeat idle_input 20) in
  FrameWidth s = 1%Z /\ rect_x (anim s) = 4%Z /\
  ~ In (rect_x (anim s)) [0; FrameWidth s; 2 * FrameWidth s; 3 * FrameWidth s]%Z.
Proof.
  vm_compute; split; [reflexivity | split; [reflexivity |]].
  intros H; simpl in H; lia.
Qed.

(** C8 (amended): when the queried texture width is a positive multiple of
    4 ([4 * k]), [FrameWidth] is [k]; after [n] frames the counter is
    [n mod 5] and the offset is [k * ((n / 5) mod 4)]: it advances by one
    frame width exactly once every 5 frames and cycles through 0, k, 2k, 3k,
    wrapping to 0 when it would reach the sheet width. *)
Theorem anim_cycles_four_frames : forall k TexH ins,
  (0 < k)%Z ->
  let s := frames (init_state (4 * k) TexH) ins in
  let n := Z.of_nat (length ins) in
  FrameWidth s = k /\
  FrameTime s = (n mod 5)%Z /\
  rect_x (anim s) = (k * ((n / 5) mod 4))%Z /\
  In (rect_x (anim s)) [0; k; 2 * k; 3 * k]%Z.
Proof.
  intros k TexH ins Hk s n.
  assert (Hfw : ((4 * k) / 4 = k)%Z) by (rewrite Z.mul_comm, Z.div_mul; lia).
  assert (Hax0 : rect_x (anim (init_state (4 * k) TexH)) = (k * ((0 / 5) mod 4))%Z)
    by (simpl; rewrite Z.div_0_l, Z.mod_0_l by lia; lia).
  destruct (frames_anim k ins (init_state (4 * k) TexH) 0 Hk (Z.le_refl 0)
              eq_refl Hfw eq_refl Hax0) as (_ & H2 & H3 & H4).
  fold s in H2, H3, H4; fold n in H3, H4.
  split; [exact H2 |]; split; [exact H3 |]; split; [exact H4 |].
    rewrite H4; apply in_four_offsets, Z.mod_pos_bound; lia.
Qed.

Lemma anim_cycles_four_frames_witness :
  (0 < 32)%Z /\
  rect_x (anim (frames (init_state (4 * 32) 32) (repeat idle_input 7))) = 32%Z.
Proof.
  split; [lia |].
  destruct (anim_cycles_four_frames 32 32 (repeat idle_input 7)) as (_ & _ & H & _);
    [lia |].
  rewrite H; reflexivity.
Defined.

(** ** Further properties of the frame loop *)


Lemma frames_cons : forall s i ins, frames s (i :: ins) = frames (fst (frame s i)) ins.
Proof. reflexivity. Qed.

Lemma frame_timer : forall s i,
  GameTime (fst (frame s i)) = round32 (GameTime s + DeltaTime) /\
  Interval (fst (frame s i)) =
    (if spawn_condition s then round32 (Interval s + double_of_int (draw_interval i))
     else Interval s).
Proof.
  intros s i; unfold frame; simpl.
  unfold render_phase; destruct (anim_tick _ _ _ _); simpl.
  unfold collide_phase; rewrite collide_walls_spec; simpl.
  unfold bounds_phase; destruct (_ || _); simpl;
  unfold input_phase; destruct (negb _), (up_held i); simpl;
  unfold spawn_phase, spawn_condition; destruct (_ <? _); split; reflexivity.
Qed.

(** The walls of a frame are the walls it started with, then the pair it
    spawned, each moved once; no wall is ever removed, so over any run the
    wall list never gets shorter. *)
Theorem walls_only_grow : forall s i,
  Walls (fst (frame s i)) =
    map (fun w => render_obj (move_wall w))
        (Walls s ++ (if spawn_condition s then spawned_pair (draw_pos i) else [])) /\
  length (Walls (fst (frame s i))) =
    (length (Walls s) + (if spawn_condition s then 2 else 0))%nat /\
  (forall ins, (length (Walls s) <= length (Walls (run s ins)))%nat).
Proof.
  assert (Hlen : forall s i, length (Walls (fst (frame s i))) =
            (length (Walls s) + (if spawn_condition s then 2 else 0))%nat).
  { intros s i; rewrite frame_walls, !length_map, spawn_phase_walls, length_app.
    destruct (spawn_condition s); reflexivity. }
  intros s i; split; [| split; [apply Hlen |]].
  - rewrite frame_walls, map_map, spawn_phase_walls; reflexivity.
  - intros ins; revert s; induction ins as [| j ins IH]; intros s; cbn [run]; [lia |].
    pose proof (Hlen s j) as Hj.
    destruct (frame s j) as [s' active]; simpl in Hj.
    specialize (IH s').
    destruct active; lia.
Qed.


(** For a sheet of positive width, in every reachable state the animation
    counter is in [0,5) and the source offset is a multiple of [FrameWidth]
    that lies in [0, TextureWidth): the source rectangle starts on the
    sheet. *)
Theorem anim_offset_on_sheet : forall s,
  reachable s -> (0 < TextureWidth s)%Z ->
  (0 <= FrameTime s < 5)%Z /\
  (0 <= rect_x (anim s) < TextureWidth s)%Z /\
  (exists m, (0 <= m)%Z /\ rect_x (anim s) = (m * FrameWidth s)%Z).
Proof.
  induction 1 as [TexW TexH | s i Hr IH]; intros Htw.
  - simpl in *; split; [lia | split; [lia |]]; exists 0%Z; lia.
  - destruct (frame_consts s i) as [Htw' Hfw'].
    rewrite Htw' in Htw; rewrite Hfw'.
    destruct (IH Htw) as (Hft & Hax & m & Hm & Hmx).
    destruct (reachable_inv s Hr) as (_ & _ & _ & _ & Hfw).
    assert (Hfw0 : (0 <= FrameWidth s)%Z) by (rewrite Hfw; apply Z.div_pos; lia).
    pose proof (frame_anim s i) as Ha.
    unfold anim_tick in Ha.
    destruct (Z.eqb_spec (FrameTime s + 1) 5) as [H5 | H5].
    + destruct (Z.leb_spec (TextureWidth s) (rect_x (anim s) + FrameWidth s)) as [Hw | Hw];
        apply pair_equal_spec in Ha as [-> ->].
      * split; [lia | split; [lia |]]; exists 0%Z; lia.
      * split; [lia | split; [lia |]]; exists (m + 1)%Z; split; [lia |].
        rewrite Hmx; ring.
    + apply pair_equal_spec in Ha as [-> ->].
      split; [lia | split; [lia |]]; exists m; split; assumption.
Qed.

Lemma anim_offset_on_sheet_witness :
  reachable (frames (init_state 9 4) (repeat idle_input 20)) /\
  (0 < TextureWidth (frames (init_state 9 4) (repeat idle_input 20)))%Z /\
  (0 <= rect_x (anim (frames (init_state 9 4) (repeat idle_input 20))) < 9)%Z.
Proof.
  assert (Hr : reachable (frames (init_state 9 4) (repeat idle_input 20))).
  { unfold frames; generalize (init_state 9 4) (reach_init 9 4).
    induction (repeat idle_input 20) as [| i l IH]; intros s Hs; simpl; [exact Hs |].
    apply IH; constructor; exact Hs. }
  split; [exact Hr |].
  split; [vm_compute; reflexivity |].
  destruct (anim_offset_on_sheet _ Hr) as (_ & H & _); [vm_compute; reflexivity |].
  exact H.
Defined.

(** After every frame of a reachable state the player's box is
    [{184, (int)(y - 16), 32, 32}] and every wall's box is
    [{(int)(x - 32), (int)(y - 256), 64, 512}], from their new positions. *)
Theorem rendered_boxes : forall s i,
  reachable s ->
  let s' := fst (frame s i) in
  DestRect (Player s') =
    Some (mkRect 184 (int_of_double (snd (Position (Player s')) - 16)) 32 32) /\
  (forall w, In w (Walls s') ->
     DestRect w = Some (mkRect (int_of_double (fst (Position w) - 32))
                               (int_of_double (snd (Position w) - 256)) 64 512)).
Proof.
  intros s i Hr s'.
  assert (Hr' : reachable s') by (constructor; exact Hr).
  destruct (reachable_inv s' Hr') as (Hsz & Hx & _ & Hws & _).
  destruct (frame_rendered s i) as [Hw Hp]; fold s' in Hw, Hp.
  split.
  - rewrite Hp; unfold rect_of; rewrite Hsz, Hx; reflexivity.
  - intros w Hin; rewrite (Hw w Hin).
    rewrite Forall_forall in Hws; destruct (Hws w Hin) as [_ Hs].
    unfold rect_of; rewrite Hs; reflexivity.
Qed.

Lemma rendered_boxes_witness :
  reachable state_at_first_spawn /\
  DestRect (Player (fst (frame state_at_first_spawn idle_input))) =
    Some (mkRect 184 (int_of_double
            (snd (Position (Player (fst (frame state_at_first_spawn idle_input)))) - 16)) 32 32).
Proof.
  split; [exact state_at_first_spawn_reachable |].
  destruct (rendered_boxes state_at_first_spawn idle_input state_at_first_spawn_reachable)
    as [H _].
  exact H.
Defined.

Lemma clock_before_61 :
  forallb (fun k => negb (1 <? clock k)) (seq 0 61) = true /\ (1 <? clock 61) = true.
Proof. vm_compute; split; reflexivity. Qed.

Lemma frames_early : forall TexW TexH ins,
  (length ins <= 60)%nat ->
  let s := frames (init_state TexW TexH) ins in
  GameTime s = clock (length ins) /\ Interval s = 1 /\ Walls s = [].
Proof.
  intros TexW TexH ins; induction ins as [| i ins IH] using rev_ind; intros Hl s; subst s.
  - repeat split.
  - rewrite length_app in Hl; simpl in Hl.
    destruct IH as (Hg & Hi & Hw); [lia |].
    unfold frames; rewrite fold_left_app; fold (frames (init_state TexW TexH) ins); cbn [fold_left].
    set (s0 := frames (init_state TexW TexH) ins) in *.
    assert (Hsp : spawn_condition s0 = false).
    { unfold spawn_condition; rewrite Hg, Hi.
      destruct clock_before_61 as [Hall _].
      rewrite forallb_forall in Hall.
      specialize (Hall (S (length ins)) ltac:(apply in_seq; lia)).
      apply negb_true_iff in Hall; exact Hall. }
    destruct (frame_timer s0 i) as [Hg' Hi'].
    rewrite Hsp in Hi'.
    rewrite length_app, Nat.add_1_r.
    split; [rewrite Hg', Hg; reflexivity |].
    split; [rewrite Hi'; exact Hi |].
    rewrite frame_walls, spawn_phase_walls, Hsp, Hw; reflexivity.
Qed.

(** Whatever the inputs and the sprite sheet, the first 60 frames spawn no
    wall, and the 61st frame spawns the first pair: [GameTime], a float
    advanced by 1/60 each frame, first exceeds [Interval] = 1 there. *)
Theorem first_spawn_in_frame_61 : forall TexW TexH ins i,
  (length ins <= 60)%nat ->
  Walls (frames (init_state TexW TexH) ins) = [] /\
  (length ins = 60%nat ->
   spawn_condition (frames (init_state TexW TexH) ins) = true /\
   length (Walls (fst (frame (frames (init_state TexW TexH) ins) i))) = 2%nat).
Proof.
  intros TexW TexH ins i Hl.
  destruct (frames_early TexW TexH ins Hl) as (Hg & Hi & Hw).
  split; [exact Hw |]; intros H60.
  assert (Hsp : spawn_condition (frames (init_state TexW TexH) ins) = true).
  { unfold spawn_condition; rewrite Hg, Hi, H60.
    destruct clock_before_61 as [_ H]; exact H. }
  split; [exact Hsp |].
  rewrite frame_walls, !length_map, spawn_phase_walls, Hsp, Hw; reflexivity.
Qed.

Lemma first_spawn_in_frame_61_witness :
  (length (repeat up_input 60) <= 60)%nat /\
  length (Walls (fst (frame (frames (init_state 128 32) (repeat up_input 60)) idle_input)))
    = 2%nat.
Proof.
  split; [simpl; lia |].
  destruct (first_spawn_in_frame_61 128 32 (repeat up_input 60) idle_input) as [_ H];
    [simpl; lia |].
  destruct (H eq_refl) as [_ H2]; exact H2.
Defined.

(** [GameTime] is a [float]: once it reads 524288 (2^19), adding 1/60 rounds
    back to the same value, so the clock never advances again; and if
    [Interval] is not below it, no wall is ever spawned again. *)
Theorem clock_freezes_at_2_19 : forall s ins,
  GameTime s = 524288 ->
  GameTime (frames s ins) = 524288 /\
  ((Interval s <? 524288) = false ->
   Interval (frames s ins) = Interval s /\
   length (Walls (frames s ins)) = length (Walls s)).
Proof.
  intros s ins; revert s; induction ins as [| i ins IH]; intros s Hg;
    [split; [exact Hg | split; reflexivity] |].
  rewrite frames_cons.
  destruct (frame_timer s i) as [Hg' Hi'].
  assert (Hg1 : GameTime (fst (frame s i)) = 524288) by (rewrite Hg', Hg; reflexivity).
  destruct (IH _ Hg1) as [H1 H2].
  split; [exact H1 |]; intros Hint.
  assert (Hsp : spawn_condition s = false)
    by (unfold spawn_condition; rewrite Hg; exact Hint).
  rewrite Hsp in Hi'.
  destruct H2 as [H3 H4]; [rewrite Hi'; exact Hint |].
  split; [rewrite H3; exact Hi' |].
  rewrite H4; destruct (walls_only_grow s i) as (_ & Hl & _).
  rewrite Hl, Hsp; apply Nat.add_0_r.
Qed.

Lemma clock_freezes_at_2_19_witness :
  let s := mkState (Player (init_state 128 32)) 524288 524290 [] false 0
                   (mkRect 0 0 32 32) 128 32 in
  GameTime s = 524288 /\ (Interval s <? 524288) = false /\
  GameTime (frames s (repeat up_input 3)) = 524288.
Proof.
  intros s; split; [reflexivity | split; [vm_compute; reflexivity |]].
  destruct (clock_freezes_at_2_19 s (repeat up_input 3)) as [H _]; [reflexivity |].
  exact H.
Defined.

Lemma spawn_heights_fixed : forall d, (-150 <= d <= 150)%Z ->
  (650 + double_of_int d) + 0 = 650 + double_of_int d /\
  (-50 + double_of_int d) + 0 = -50 + double_of_int d.
Proof.
  intros d H.
  assert (Hin : In d (map (fun n => Z.of_nat n - 150)%Z (seq 0 301))).
  { apply in_map_iff; exists (Z.to_nat (d + 150)); split; [lia | apply in_seq; lia]. }
  simpl in Hin.
  repeat (destruct Hin as [<- | Hin]; [split; reflexivity |]).
  destruct Hin.
Qed.

Lemma flatten_pairs_app : forall ps qs,
  flatten_pairs (ps ++ qs) = flatten_pairs ps ++ flatten_pairs qs.
Proof. intros ps qs; unfold flatten_pairs; rewrite map_app, concat_app; reflexivity. Qed.

Lemma flatten_pairs_map : forall (f : GameObject -> GameObject) ps,
  map f (flatten_pairs ps) = flatten_pairs (map (fun p => (f (fst p), f (snd p))) ps).
Proof.
  intros f ps; induction ps as [| p ps IH]; [reflexivity |].
  unfold flatten_pairs in *; simpl; rewrite IH; reflexivity.
Qed.

Lemma pair_ok_frame : forall p,
  pair_ok p ->
  pair_ok (render_obj (move_wall (fst p)), render_obj (move_wall (snd p))).
Proof.
  intros [w1 w2] (Hx & [Hv1 Hs1] & [Hv2 Hs2] & d & Hd & Hy1 & Hy2); simpl in *.
  destruct (spawn_heights_fixed d Hd) as [H650 H50].
  unfold pair_ok, wall_shape; simpl.
  rewrite Hv1, Hv2; unfold pos_add; simpl.
  split; [rewrite Hx; reflexivity |].
  split; [split; [reflexivity | assumption] |]; split; [split; [reflexivity | assumption] |].
  exists d; split; [exact Hd |].
  rewrite Hy1, Hy2; split; assumption.
Qed.

Lemma reachable_valid_run : forall ins s,
  Forall valid_input ins -> reachable_valid s -> reachable_valid (run s ins).
Proof.
  induction ins as [| i ins IH]; intros s Hv Hs; cbn [run]; [exact Hs |].
  inversion Hv as [| ? ? Hi Hrest]; subst.
  destruct (frame s i) as [s' active] eqn:E.
  assert (Hr : reachable_valid s')
    by (change s' with (fst (s', active)); rewrite <- E; constructor; assumption).
  destruct active; [apply IH |]; assumption.
Qed.

(** When every random draw lies in its distribution's range, the wall list
    of every reachable state is a sequence of spawned pairs: the two walls of
    a pair always share their x, keep velocity (-1,0) and size (64,512), and
    keep forever their spawn heights 650 + d and -50 + d (d in [-150,150]);
    moving by (-1,0) never changes a wall's y. *)
Theorem walls_are_pairs : forall s, reachable_valid s -> paired (Walls s).
Proof.
  induction 1 as [TexW TexH | s i Hi Hr IH].
  - exists []; split; [reflexivity | constructor].
  - destruct IH as (ps & Hps & Hok).
    rewrite frame_walls, map_map, spawn_phase_walls, Hps.
    destruct Hi as [_ Hd].
    set (qs := if spawn_condition s
               then [(GetWall (832, 650 + double_of_int (draw_pos i)) (-1, 0) (64, 512),
                      GetWall (832, -50 + double_of_int (draw_pos i)) (-1, 0) (64, 512))]
               else []).
    assert (Hq : (if spawn_condition s then spawned_pair (draw_pos i) else []) = flatten_pairs qs)
      by (subst qs; destruct (spawn_condition s); reflexivity).
    assert (Hqok : Forall pair_ok qs).
    { subst qs; destruct (spawn_condition s); repeat constructor.
      exists (draw_pos i); split; [exact Hd | split; reflexivity]. }
    rewrite Hq, <- flatten_pairs_app, flatten_pairs_map.
    eexists; split; [reflexivity |].
    apply Forall_map, Forall_app; split;
      (eapply Forall_impl; [intros p Hp; apply pair_ok_frame; exact Hp |]); assumption.
Qed.

Lemma walls_are_pairs_witness :
  reachable_valid (fst (frame state_at_first_spawn idle_input)) /\
  paired (Walls (fst (frame state_at_first_spawn idle_input))).
Proof.
  assert (Hr : reachable_valid (fst (frame state_at_first_spawn idle_input))).
  { apply rv_frame; [unfold valid_input; simpl; lia |].
    apply reachable_valid_run; [| apply rv_init].
    apply Forall_forall; intros i Hi; apply repeat_spec in Hi; subst i.
    unfold valid_input; simpl; lia. }
  split; [exact Hr | apply walls_are_pairs; exact Hr].
Defined.

(** ** The render output *)



(** ** Start-up *)

Import Startup Strings.String.StringSyntax.
Local Open Scope Z_scope.
Local Open Scope string_scope.

